(** * glib_thread_stubs.c: GLib threading stubs for single-threaded WASM

    A shallow embedding of [src/glib_thread_stubs.c] and the verification of
    its specification.

    The translation unit has two kinds of functions:
    - stateless stubs (mutex, rw-lock, recursive mutex, condition variable,
      system thread and thread pool entry points) that ignore their
      arguments and return a constant;
    - the emulation of thread-local storage: a [static] singly linked list
      of [struct PrivateEntry] nodes, scanned by key identity, with new
      nodes obtained from [malloc] and pushed at the head.

    The C program is modelled over an explicit memory: the nodes live in a
    heap indexed by address, [private_list] is a pointer into it, and the
    outcomes of [malloc] come from the environment. *)

From stdpp Require Import base gmap list.

Local Open Scope Z_scope.

(** ** Values of the C types *)

(** [void*], [gpointer], [gconstpointer]: an address. Keys and values are
    opaque addresses, compared with [==] and never dereferenced. *)
Abbreviation ptr := Z (only parsing).

Definition NULL : ptr := 0.

(** [#define TRUE 1], [#define FALSE 0]; [gboolean] is [int]. *)
Definition TRUE : Z := 1.
Definition FALSE : Z := 0.

(** [struct PrivateEntry { void *key; void *value; struct PrivateEntry *next; }] *)
Record PrivateEntry := mkEntry {
  key : ptr;
  value : ptr;
  next : ptr;
}.

(** ** The memory the translation unit runs in *)

(** - [heap]: the [struct PrivateEntry] blocks handed out by [malloc] so far,
      by address;
    - [private_list]: the [static struct PrivateEntry *private_list];
    - [brk]: the environment's answers to the coming calls of [malloc], in
      order, [NULL] for a call that fails; past the end of the list memory is
      exhausted and every call fails;
    - [mallocs]: how many times [malloc] has been called;
    - [cells]: pointer-sized cells owned by the callers (the [GError*]
      variable a [GError **error] argument points to, for one). *)
Record world := mkWorld {
  heap : gmap Z PrivateEntry;
  private_list : ptr;
  brk : list Z;
  mallocs : nat;
  cells : gmap Z Z;
}.

(** [static struct PrivateEntry *private_list = NULL;] at program start,
    nothing allocated yet. *)
Definition init (future : list Z) (c : gmap Z Z) : world :=
  {| heap := ∅; private_list := NULL; brk := future; mallocs := O; cells := c |}.

Definition set_heap (h : gmap Z PrivateEntry) (w : world) : world :=
  {| heap := h; private_list := private_list w; brk := brk w;
     mallocs := mallocs w; cells := cells w |}.

Definition set_private_list (p : ptr) (w : world) : world :=
  {| heap := heap w; private_list := p; brk := brk w;
     mallocs := mallocs w; cells := cells w |}.

(** ** A state monad with failure

    A C function is a computation on the world. [None] stands for a run that
    does not return to its caller: a dereference of an address that holds no
    node, or a scan that never reaches [NULL]. *)
Definition M (A : Type) : Type := world → option (A * world).

Definition ret {A} (a : A) : M A := λ w, Some (a, w).

Definition bind {A B} (m : M A) (k : A → M B) : M B :=
  λ w, match m w with
       | Some (a, w') => k a w'
       | None => None
       end.

Definition fault {A} : M A := λ _, None.

Declare Scope cmd_scope.
Delimit Scope cmd_scope with cmd.
Notation "x <- m ;; k" := (bind m (λ x, k))
  (at level 100, m at next level, right associativity) : cmd_scope.
Notation "m ;; k" := (bind m (λ _, k))
  (at level 100, right associativity) : cmd_scope.
Local Open Scope cmd_scope.

(** *** Memory accesses *)

(** Reading the fields of the node at [a]. *)
Definition load (a : ptr) : M PrivateEntry :=
  λ w, match heap w !! a with
       | Some e => Some (e, w)
       | None => None
       end.

(** [entry->value = value;] on a node of the list. *)
Definition store_value (a : ptr) (v : ptr) : M unit :=
  λ w, match heap w !! a with
       | Some e => Some (tt, set_heap (<[a := mkEntry (key e) v (next e)]> (heap w)) w)
       | None => None
       end.

(** The three field writes that fill a block just obtained from [malloc]. *)
Definition store_node (a : ptr) (e : PrivateEntry) : M unit :=
  λ w, Some (tt, set_heap (<[a := e]> (heap w)) w).

Definition read_private_list : M ptr := λ w, Some (private_list w, w).

Definition write_private_list (p : ptr) : M unit :=
  λ w, Some (tt, set_private_list p w).

(** [malloc(sizeof(struct PrivateEntry))]: the next answer of the
    environment. The block's contents are unspecified until written. *)
Definition malloc : M ptr :=
  λ w, Some (hd NULL (brk w),
             {| heap := heap w; private_list := private_list w;
                brk := tl (brk w); mallocs := S (mallocs w); cells := cells w |}).

(** ** Mutex stubs *)

Definition g_mutex_lock (mutex : ptr) : M unit := ret tt.
Definition g_mutex_unlock (mutex : ptr) : M unit := ret tt.
Definition g_mutex_trylock (mutex : ptr) : M Z := ret TRUE.
Definition g_mutex_init (mutex : ptr) : M unit := ret tt.
Definition g_mutex_clear (mutex : ptr) : M unit := ret tt.

(** ** RWLock stubs *)

Definition g_rw_lock_init (rw_lock : ptr) : M unit := ret tt.
Definition g_rw_lock_clear (rw_lock : ptr) : M unit := ret tt.
Definition g_rw_lock_writer_lock (rw_lock : ptr) : M unit := ret tt.
Definition g_rw_lock_writer_trylock (rw_lock : ptr) : M Z := ret TRUE.
Definition g_rw_lock_writer_unlock (rw_lock : ptr) : M unit := ret tt.
Definition g_rw_lock_reader_lock (rw_lock : ptr) : M unit := ret tt.
Definition g_rw_lock_reader_trylock (rw_lock : ptr) : M Z := ret TRUE.
Definition g_rw_lock_reader_unlock (rw_lock : ptr) : M unit := ret tt.

(** ** RecMutex stubs *)

Definition g_rec_mutex_init (rec_mutex : ptr) : M unit := ret tt.
Definition g_rec_mutex_clear (rec_mutex : ptr) : M unit := ret tt.
Definition g_rec_mutex_lock (rec_mutex : ptr) : M unit := ret tt.
Definition g_rec_mutex_trylock (rec_mutex : ptr) : M Z := ret TRUE.
Definition g_rec_mutex_unlock (rec_mutex : ptr) : M unit := ret tt.

(** ** Cond stubs *)

Definition g_cond_init (cond : ptr) : M unit := ret tt.
Definition g_cond_clear (cond : ptr) : M unit := ret tt.
Definition g_cond_wait (cond mutex : ptr) : M unit := ret tt.
Definition g_cond_wait_until (cond mutex : ptr) (end_time : Z) : M Z := ret TRUE.
Definition g_cond_signal (cond : ptr) : M unit := ret tt.
Definition g_cond_broadcast (cond : ptr) : M unit := ret tt.

(** ** Private (thread-local) storage *)

(** The [while (entry)] loop of [g_private_get]. [fuel] bounds the number of
    iterations; a loop that runs out of it does not return. *)
Fixpoint g_private_get_loop (fuel : nat) (entry : ptr) (k : ptr) : M ptr :=
  match fuel with
  | O => fault
  | S fuel' =>
      if decide (entry = NULL) then ret NULL
      else
        e <- load entry ;;
        if decide (key e = k) then ret (value e)
        else g_private_get_loop fuel' (next e) k
  end.

(** The [while (entry)] loop of [g_private_set]; the result tells whether
    the loop left the function through its [return]. *)
Fixpoint g_private_set_loop (fuel : nat) (entry : ptr) (k v : ptr) : M bool :=
  match fuel with
  | O => fault
  | S fuel' =>
      if decide (entry = NULL) then ret false
      else
        e <- load entry ;;
        if decide (key e = k) then (store_value entry v ;; ret true)
        else g_private_set_loop fuel' (next e) k v
  end.

(** A list without a cycle visits each of its nodes once, so as many
    iterations as there are allocated nodes, and one more to see [NULL],
    finish every scan that finishes at all. *)
Definition scan_fuel : M nat := λ w, Some (S (size (heap w)), w).

Definition g_private_get (k : ptr) : M ptr :=
  fuel <- scan_fuel ;;
  entry <- read_private_list ;;
  g_private_get_loop fuel entry k.

Definition g_private_set (k : ptr) (v : ptr) : M unit :=
  fuel <- scan_fuel ;;
  entry <- read_private_list ;;
  returned <- g_private_set_loop fuel entry k v ;;
  if (returned : bool) then ret tt
  else
    (* Not found, add new entry *)
    entry <- malloc ;;
    if decide (entry ≠ NULL) then
      head <- read_private_list ;;
      store_node entry (mkEntry k v head) ;;
      write_private_list entry
    else ret tt.

Definition g_private_replace (k : ptr) (v : ptr) : M unit :=
  g_private_set k v.

(** ** System thread stubs *)

Definition g_system_thread_set_name (name : ptr) : M unit := ret tt.

Definition g_system_thread_new (proxy : ptr) (stack_size : Z) (name : ptr)
    (func : ptr) (data : ptr) (error : ptr) : M ptr := ret NULL.

Definition g_system_thread_free (thread : ptr) : M unit := ret tt.
Definition g_system_thread_wait (thread : ptr) : M unit := ret tt.
Definition g_system_thread_exit : M unit := ret tt.

(** ** Thread pool stubs *)

Definition g_thread_pool_set_max_unused_threads (max_threads : Z) : M unit := ret tt.
Definition g_thread_pool_get_max_unused_threads : M Z := ret 0.
Definition g_thread_pool_get_num_unused_threads : M Z := ret 0.
Definition g_thread_pool_stop_unused_threads : M unit := ret tt.

(** ** The interface as a whole *)

(** One call of an exported function, with its arguments. *)
Inductive call :=
| Call_mutex_lock (mutex : Z)
| Call_mutex_unlock (mutex : Z)
| Call_mutex_trylock (mutex : Z)
| Call_mutex_init (mutex : Z)
| Call_mutex_clear (mutex : Z)
| Call_rw_lock_init (rw_lock : Z)
| Call_rw_lock_clear (rw_lock : Z)
| Call_rw_lock_writer_lock (rw_lock : Z)
| Call_rw_lock_writer_trylock (rw_lock : Z)
| Call_rw_lock_writer_unlock (rw_lock : Z)
| Call_rw_lock_reader_lock (rw_lock : Z)
| Call_rw_lock_reader_trylock (rw_lock : Z)
| Call_rw_lock_reader_unlock (rw_lock : Z)
| Call_rec_mutex_init (rec_mutex : Z)
| Call_rec_mutex_clear (rec_mutex : Z)
| Call_rec_mutex_lock (rec_mutex : Z)
| Call_rec_mutex_trylock (rec_mutex : Z)
| Call_rec_mutex_unlock (rec_mutex : Z)
| Call_cond_init (cond : Z)
| Call_cond_clear (cond : Z)
| Call_cond_wait (cond mutex : Z)
| Call_cond_wait_until (cond mutex : Z) (end_time : Z)
| Call_cond_signal (cond : Z)
| Call_cond_broadcast (cond : Z)
| Call_private_get (k : Z)
| Call_private_set (k v : Z)
| Call_private_replace (k v : Z)
| Call_system_thread_set_name (name : Z)
| Call_system_thread_new (proxy : Z) (stack_size : Z) (name func data error : Z)
| Call_system_thread_free (thread : Z)
| Call_system_thread_wait (thread : Z)
| Call_system_thread_exit
| Call_thread_pool_set_max_unused_threads (max_threads : Z)
| Call_thread_pool_get_max_unused_threads
| Call_thread_pool_get_num_unused_threads
| Call_thread_pool_stop_unused_threads.

(** What a call hands back: nothing, a [gboolean], a [gpointer] or a [guint]. *)
Inductive retval :=
| RVoid
| RBool (b : Z)
| RPtr (p : Z)
| RUInt (n : Z).

Definition void (m : M unit) : M retval := _ <- m ;; ret RVoid.
Definition boolean (m : M Z) : M retval := b <- m ;; ret (RBool b).
Definition pointer (m : M Z) : M retval := p <- m ;; ret (RPtr p).
Definition uint (m : M Z) : M retval := n <- m ;; ret (RUInt n).

Definition exec (c : call) : M retval :=
  match c with
  | Call_mutex_lock m => void (g_mutex_lock m)
  | Call_mutex_unlock m => void (g_mutex_unlock m)
  | Call_mutex_trylock m => boolean (g_mutex_trylock m)
  | Call_mutex_init m => void (g_mutex_init m)
  | Call_mutex_clear m => void (g_mutex_clear m)
  | Call_rw_lock_init l => void (g_rw_lock_init l)
  | Call_rw_lock_clear l => void (g_rw_lock_clear l)
  | Call_rw_lock_writer_lock l => void (g_rw_lock_writer_lock l)
  | Call_rw_lock_writer_trylock l => boolean (g_rw_lock_writer_trylock l)
  | Call_rw_lock_writer_unlock l => void (g_rw_lock_writer_unlock l)
  | Call_rw_lock_reader_lock l => void (g_rw_lock_reader_lock l)
  | Call_rw_lock_reader_trylock l => boolean (g_rw_lock_reader_trylock l)
  | Call_rw_lock_reader_unlock l => void (g_rw_lock_reader_unlock l)
  | Call_rec_mutex_init m => void (g_rec_mutex_init m)
  | Call_rec_mutex_clear m => void (g_rec_mutex_clear m)
  | Call_rec_mutex_lock m => void (g_rec_mutex_lock m)
  | Call_rec_mutex_trylock m => boolean (g_rec_mutex_trylock m)
  | Call_rec_mutex_unlock m => void (g_rec_mutex_unlock m)
  | Call_cond_init c => void (g_cond_init c)
  | Call_cond_clear c => void (g_cond_clear c)
  | Call_cond_wait c m => void (g_cond_wait c m)
  | Call_cond_wait_until c m t => boolean (g_cond_wait_until c m t)
  | Call_cond_signal c => void (g_cond_signal c)
  | Call_cond_broadcast c => void (g_cond_broadcast c)
  | Call_private_get k => pointer (g_private_get k)
  | Call_private_set k v => void (g_private_set k v)
  | Call_private_replace k v => void (g_private_replace k v)
  | Call_system_thread_set_name n => void (g_system_thread_set_name n)
  | Call_system_thread_new p s n f d e => pointer (g_system_thread_new p s n f d e)
  | Call_system_thread_free t => void (g_system_thread_free t)
  | Call_system_thread_wait t => void (g_system_thread_wait t)
  | Call_system_thread_exit => void g_system_thread_exit
  | Call_thread_pool_set_max_unused_threads n => void (g_thread_pool_set_max_unused_threads n)
  | Call_thread_pool_get_max_unused_threads => uint g_thread_pool_get_max_unused_threads
  | Call_thread_pool_get_num_unused_threads => uint g_thread_pool_get_num_unused_threads
  | Call_thread_pool_stop_unused_threads => void g_thread_pool_stop_unused_threads
  end.

(** A program that uses the interface: calls one after the other, with the
    list of what they returned. *)
Fixpoint run (cs : list call) : M (list retval) :=
  match cs with
  | [] => ret []
  | c :: cs' => r <- exec c ;; rs <- run cs' ;; ret (r :: rs)
  end.

(** ** The list the memory holds *)

(** [chain h p l]: from address [p], following [next] in [h], one meets the
    nodes [l] (address and contents) and then [NULL]. *)
Inductive chain (h : gmap Z PrivateEntry) : Z → list (Z * PrivateEntry) → Prop :=
| chain_nil : chain h NULL []
| chain_cons a e l :
    a ≠ NULL → h !! a = Some e → chain h (next e) l → chain h a ((a, e) :: l).

(** The same traversal as a function. *)
Fixpoint walk (fuel : nat) (h : gmap Z PrivateEntry) (p : Z)
    : option (list (Z * PrivateEntry)) :=
  match fuel with
  | O => None
  | S fuel' =>
      if decide (p = NULL) then Some []
      else match h !! p with
           | None => None
           | Some e =>
               match walk fuel' h (next e) with
               | Some l => Some ((p, e) :: l)
               | None => None
               end
           end
  end.

(** The entries of the store, head first. *)
Definition entries (w : world) : option (list (Z * PrivateEntry)) :=
  walk (S (size (heap w))) (heap w) (private_list w).

Definition keys_of (l : list (Z * PrivateEntry)) : list Z :=
  map (λ ae, key ae.2) l.

Definition keys (w : world) : list Z :=
  match entries w with
  | Some l => keys_of l
  | None => []
  end.

(** Whether [k] has an entry, and how many it has. *)
Definition present (k : Z) (w : world) : bool := bool_decide (k ∈ keys w).

Definition count_key (k : Z) (w : world) : nat :=
  length (filter (λ x, x = k) (keys w)).

(** The value of the first entry for [k], [NULL] without one. *)
Fixpoint assoc (k : Z) (l : list (Z * PrivateEntry)) : Z :=
  match l with
  | [] => NULL
  | (_, e) :: r => if decide (key e = k) then value e else assoc k r
  end.

(** The first entry for [k] with its value replaced. *)
Fixpoint update (k v : Z) (l : list (Z * PrivateEntry)) : list (Z * PrivateEntry) :=
  match l with
  | [] => []
  | (a, e) :: r =>
      if decide (key e = k) then (a, mkEntry (key e) v (next e)) :: r
      else (a, e) :: update k v r
  end.

Fixpoint overwrite (k v : Z) (l : list (Z * PrivateEntry))
    (h : gmap Z PrivateEntry) : gmap Z PrivateEntry :=
  match l with
  | [] => h
  | (a, e) :: r =>
      if decide (key e = k) then <[a := mkEntry (key e) v (next e)]> h
      else overwrite k v r h
  end.

(** [malloc] hands out blocks that overlap no block in use, and nothing is
    ever freed here: each coming answer is [NULL] or an address that holds
    no node and does not come again. *)
Fixpoint fresh (h : gmap Z PrivateEntry) (future : list Z) : bool :=
  match future with
  | [] => true
  | a :: r =>
      (bool_decide (a = NULL)
       || (bool_decide (h !! a = None) && bool_decide (a ∉ r)))
      && fresh h r
  end.

(** The representation invariant of the store: [private_list] heads a list
    that ends, no key comes twice, and the allocator is sound. *)
Definition wf (w : world) : bool :=
  match entries w with
  | Some l => bool_decide (NoDup (keys_of l)) && fresh (heap w) (brk w)
  | None => false
  end.

(** [w] holds exactly the list [l]. *)
Definition repr (w : world) (l : list (Z * PrivateEntry)) : Prop :=
  chain (heap w) (private_list w) l
  ∧ NoDup (keys_of l)
  ∧ fresh (heap w) (brk w) = true.

(** The next answer of [malloc]. *)
Definition next_malloc (w : world) : Z := hd NULL (brk w).

(** Calls that write the entry of a key, and programs that never write
    the entry of [k]. *)
Definition sets_key (c : call) : option Z :=
  match c with
  | Call_private_set k _ | Call_private_replace k _ => Some k
  | _ => None
  end.

Definition never_sets (k : Z) (cs : list call) : bool :=
  forallb (λ c, bool_decide (sets_key c ≠ Some k)) cs.

Definition is_trylock (c : call) : bool :=
  match c with
  | Call_mutex_trylock _ | Call_rw_lock_writer_trylock _
  | Call_rw_lock_reader_trylock _ | Call_rec_mutex_trylock _
  | Call_cond_wait_until _ _ _ => true
  | _ => false
  end.

(** [n] calls of the thread pool setter in a row. *)
Fixpoint set_max_unused_threads_all (ns : list Z) : M unit :=
  match ns with
  | [] => ret tt
  | n :: ns' =>
      g_thread_pool_set_max_unused_threads n ;; set_max_unused_threads_all ns'
  end.

(** What a call writes into the store: the key and the value of a call of
    [g_private_set] or [g_private_replace]. *)
Definition written (c : call) : option (Z * Z) :=
  match c with
  | Call_private_set k v | Call_private_replace k v => Some (k, v)
  | _ => None
  end.

(** The value a finite map would hold for [k] after the writes of [cs],
    starting from [d]: that of the last write to [k]. *)
Fixpoint last_write (k : Z) (cs : list call) (d : Z) : Z :=
  match cs with
  | [] => d
  | c :: cs' =>
      last_write k cs'
        (match written c with
         | Some (k', v) => if decide (k' = k) then v else d
         | None => d
         end)
  end.

(** The next [n] calls of [malloc] all succeed. *)
Fixpoint enough_memory (n : nat) (future : list Z) : bool :=
  match n, future with
  | O, _ => true
  | S _, [] => false
  | S n', a :: r => negb (bool_decide (a = NULL)) && enough_memory n' r
  end.

(** The keys a program writes. *)
Definition written_keys (cs : list call) : list Z := (omap written cs).*1.

(** What a program may do to a well-formed store: [keeps ws w l w' l']
    relates a world [w] that holds the list [l] to a later world [w'] that
    holds [l'], when the keys written in between are [ws]. *)
Definition keeps (ws : list Z) (w : world) (l : list (Z * PrivateEntry))
    (w' : world) (l' : list (Z * PrivateEntry)) : Prop :=
  cells w' = cells w
  ∧ (∀ k, k ∈ keys_of l → k ∈ keys_of l')
  ∧ (∀ k, k ∈ keys_of l' → k ∈ keys_of l ∨ k ∈ ws)
  ∧ (∀ a e, heap w !! a = Some e →
       ∃ e', heap w' !! a = Some e' ∧ key e' = key e ∧ next e' = next e)
  ∧ (mallocs w ≤ mallocs w' ≤ mallocs w + length ws)%nat
  ∧ (dom (heap w) = list_to_set l.*1 → dom (heap w') = list_to_set l'.*1).

(** * Properties *)

(** ** Lists in memory *)

Section Chains.
Context (h : gmap Z PrivateEntry).

Lemma chain_functional p l1 l2 : chain h p l1 → chain h p l2 → l1 = l2.
Proof.
  intros H1. revert l2.
  induction H1 as [|a e l Ha He _ IH]; intros l2 H2; inversion H2; subst;
    try done.
  assert (e0 = e) by congruence. subst e0. f_equal. by apply IH.
Qed.

Lemma chain_lookup p l a e : chain h p l → (a, e) ∈ l → h !! a = Some e ∧ a ≠ NULL.
Proof.
  induction 1 as [|a' e' l Ha He _ IH]; intros Hin.
  - by apply elem_of_nil in Hin.
  - apply elem_of_cons in Hin as [Heq|Hin]; [by simplify_eq | by apply IH].
Qed.

Lemma chain_key_in p l a e :
  chain h p l → a ∈ l.*1 → h !! a = Some e → key e ∈ keys_of l.
Proof.
  intros Hc Hin He. apply list_elem_of_fmap in Hin as [[a' e'] [Heq Hin]].
  simpl in Heq. subst a'.
  destruct (chain_lookup _ _ _ _ Hc Hin) as [He' _].
  assert (e' = e) by congruence. subst e'.
  unfold keys_of. apply list_elem_of_fmap. by exists (a, e).
Qed.

(** With distinct keys the nodes are at distinct addresses. *)
Lemma chain_NoDup_addr p l : chain h p l → NoDup (keys_of l) → NoDup l.*1.
Proof.
  induction 1 as [|a e l Ha He Hc IH]; simpl; intros Hnd.
  - constructor.
  - apply NoDup_cons in Hnd as [Hk Hnd]. apply NoDup_cons. split; [|by apply IH].
    intros Hin. apply Hk. by eapply chain_key_in.
Qed.

(** So the list is no longer than the heap is large. *)
Lemma chain_length p l : chain h p l → NoDup (keys_of l) → (length l ≤ size h)%nat.
Proof.
  intros Hc Hnd. pose proof (chain_NoDup_addr _ _ Hc Hnd) as Hna.
  rewrite <- (length_fmap fst l), <- size_dom.
  unfold size at 1, set_size; simpl.
  apply submseteq_length, NoDup_submseteq; [done|].
  intros a Hin. apply elem_of_elements, elem_of_dom.
  apply list_elem_of_fmap in Hin as [[a' e'] [-> Hin]].
  destruct (chain_lookup _ _ _ _ Hc Hin) as [He' _]. by exists e'.
Qed.

Lemma walk_chain fuel p l : walk fuel h p = Some l → chain h p l.
Proof.
  revert p l. induction fuel as [|fuel IH]; intros p l; simpl; [done|].
  case_decide as Hp.
  - intros [= <-]. subst p. constructor.
  - destruct (h !! p) as [e|] eqn:He; [|done].
    destruct (walk fuel h (next e)) as [l'|] eqn:Hw; [|done].
    intros [= <-]. constructor; auto.
Qed.

Lemma chain_walk fuel p l : chain h p l → (length l < fuel)%nat → walk fuel h p = Some l.
Proof.
  intros Hc. revert fuel.
  induction Hc as [|a e l Ha He _ IH]; intros [|fuel] Hlen; simpl in *; try lia.
  - done.
  - rewrite decide_False by done. rewrite He, IH by lia. done.
Qed.

(** A write outside the list leaves the list as it is. *)
Lemma chain_insert_other p l a e :
  chain h p l → a ∉ l.*1 → chain (<[a := e]> h) p l.
Proof.
  induction 1 as [|a' e' l Ha He _ IH]; simpl; intros Hnot.
  - constructor.
  - apply not_elem_of_cons in Hnot as [Hne Hnot].
    constructor; [done | by rewrite lookup_insert_ne | by apply IH].
Qed.

(** Overwriting the value of the first node for [k], in place. *)
Lemma chain_overwrite p l k v :
  chain h p l → NoDup l.*1 → chain (overwrite k v l h) p (update k v l).
Proof.
  induction 1 as [|a e l Ha He Hc IH]; simpl; intros Hnd.
  - constructor.
  - apply NoDup_cons in Hnd as [Hnot Hnd]. case_decide as Hk.
    + constructor; [done | by rewrite lookup_insert_eq |].
      simpl. by apply chain_insert_other.
    + constructor; [done| |by apply IH].
      clear IH. revert Hnot He. clear. induction l as [|[a' e'] l IH]; simpl; [done|].
      intros Hnot He. apply not_elem_of_cons in Hnot as [Hne Hnot].
      case_decide; [by rewrite lookup_insert_ne | by apply IH].
Qed.
End Chains.

(** ** The association list *)

Lemma keys_of_update k v l : keys_of (update k v l) = keys_of l.
Proof.
  induction l as [|[a e] l IH]; simpl; [done|].
  case_decide; simpl; [done | by rewrite IH].
Qed.

Lemma addresses_update k v l : (update k v l).*1 = l.*1.
Proof.
  induction l as [|[a e] l IH]; [done|].
  cbn [update]. case_decide; rewrite !fmap_cons; [done | by f_equal].
Qed.

Lemma length_update k v l : length (update k v l) = length l.
Proof.
  induction l as [|[a e] l IH]; simpl; [done|].
  case_decide; simpl; [done | by rewrite IH].
Qed.

Lemma assoc_update_eq k v l : k ∈ keys_of l → assoc k (update k v l) = v.
Proof.
  induction l as [|[a e] l IH]; simpl; intros Hin.
  - by apply elem_of_nil in Hin.
  - case_decide as Hk; simpl.
    + by rewrite decide_True.
    + rewrite decide_False by done. apply IH.
      apply elem_of_cons in Hin as [Heq|Hin]; [congruence | done].
Qed.

Lemma assoc_update_ne k k' v l : k' ≠ k → assoc k' (update k v l) = assoc k' l.
Proof.
  intros Hne. induction l as [|[a e] l IH]; simpl; [done|].
  case_decide as Hk; simpl.
  - rewrite !decide_False by congruence. done.
  - case_decide; [done | apply IH].
Qed.

Lemma assoc_absent k l : k ∉ keys_of l → assoc k l = NULL.
Proof.
  induction l as [|[a e] l IH]; simpl; [done|].
  intros Hnot. apply not_elem_of_cons in Hnot as [Hne Hnot].
  rewrite decide_False by congruence. by apply IH.
Qed.

Lemma overwrite_absent k v l h : k ∉ keys_of l → overwrite k v l h = h.
Proof.
  induction l as [|[a e] l IH]; simpl; [done|].
  intros Hnot. apply not_elem_of_cons in Hnot as [Hne Hnot].
  rewrite decide_False by congruence. by apply IH.
Qed.

(** An overwrite in place touches no address outside the list: what was
    unallocated stays so. *)
Lemma overwrite_lookup_None h p l k v x :
  chain h p l → h !! x = None → overwrite k v l h !! x = None.
Proof.
  induction 1 as [|a e l Ha He _ IH]; simpl; intros Hx; [done|].
  case_decide; [|by apply IH].
  rewrite lookup_insert_ne; [done | congruence].
Qed.

Lemma overwrite_dom h p l k v : chain h p l → dom (overwrite k v l h) = dom h.
Proof.
  induction 1 as [|a e l Ha He _ IH]; simpl; [done|].
  case_decide; [|done].
  rewrite dom_insert_L. apply (elem_of_dom_2 h) in He.
  apply set_eq. intros x. rewrite elem_of_union, elem_of_singleton.
  split; [intros [->|?]; done | by right].
Qed.

Lemma count_NoDup (k : Z) (l : list Z) :
  NoDup l → length (filter (λ x, x = k) l) = if decide (k ∈ l) then 1%nat else 0%nat.
Proof.
  induction 1 as [|x l Hx _ IH]; [done|].
  rewrite filter_cons. destruct (decide (x = k)) as [Hk|Hk].
  - subst x. simpl. rewrite IH, decide_False by done.
    rewrite decide_True by apply list_elem_of_here. done.
  - rewrite IH. destruct (decide (k ∈ l)) as [Hin|Hnot].
    + rewrite decide_True by (by apply list_elem_of_further). done.
    + rewrite decide_False; [done|].
      intros Hin. apply elem_of_cons in Hin as [?|?]; congruence.
Qed.

(** ** The allocator *)

Lemma fresh_cons h a r :
  fresh h (a :: r) = true ↔
  (a = NULL ∨ (h !! a = None ∧ a ∉ r)) ∧ fresh h r = true.
Proof.
  simpl. rewrite andb_true_iff, orb_true_iff, andb_true_iff.
  rewrite !bool_decide_eq_true. done.
Qed.

Lemma fresh_tl h l : fresh h l = true → fresh h (tl l) = true.
Proof. destruct l as [|a r]; [done|]. rewrite fresh_cons. tauto. Qed.

Lemma fresh_hd h l :
  fresh h l = true → hd NULL l ≠ NULL → h !! hd NULL l = None ∧ hd NULL l ∉ tl l.
Proof.
  destruct l as [|a r]; simpl; [done|].
  intros Hf Hne. apply fresh_cons in Hf as [[?|?] _]; done.
Qed.

(** Freshness only looks at the addresses the allocator will answer. *)
Lemma fresh_change h h' l :
  (∀ x, x ∈ l → h !! x = None → h' !! x = None) →
  fresh h l = true → fresh h' l = true.
Proof.
  induction l as [|a r IH]; [done|].
  intros Hx. rewrite !fresh_cons. intros [Ha Hr]. split.
  - destruct Ha as [?|[Hn ?]]; [by left|right].
    split; [|done]. apply Hx; [apply list_elem_of_here | done].
  - apply IH; [|done]. intros x Hin. apply Hx. by apply list_elem_of_further.
Qed.

(** ** The invariant, as a computation and as a relation *)

Lemma world_eta w : set_heap (heap w) w = w.
Proof. by destruct w. Qed.

Lemma repr_entries w l : repr w l → entries w = Some l.
Proof.
  intros (Hc & Hnd & _). unfold entries. apply chain_walk; [done|].
  pose proof (chain_length _ _ _ Hc Hnd). lia.
Qed.

Lemma repr_wf w l : repr w l → wf w = true.
Proof.
  intros Hr. unfold wf. rewrite (repr_entries _ _ Hr).
  destruct Hr as (_ & Hnd & Hf). rewrite Hf, andb_true_r.
  by apply bool_decide_eq_true.
Qed.

Lemma wf_repr w : wf w = true → ∃ l, repr w l.
Proof.
  unfold wf. destruct (entries w) as [l|] eqn:He; [|done].
  rewrite andb_true_iff, bool_decide_eq_true. intros [Hnd Hf].
  exists l. split; [|done]. by eapply walk_chain.
Qed.

Lemma repr_keys w l : repr w l → keys w = keys_of l.
Proof. intros Hr. unfold keys. by rewrite (repr_entries _ _ Hr). Qed.

Lemma repr_present w l k : repr w l → present k w = bool_decide (k ∈ keys_of l).
Proof. intros Hr. unfold present. by rewrite (repr_keys _ _ Hr). Qed.

Lemma repr_count w l k :
  repr w l → count_key k w = if decide (k ∈ keys_of l) then 1%nat else 0%nat.
Proof.
  intros Hr. unfold count_key. rewrite (repr_keys _ _ Hr).
  apply count_NoDup. apply Hr.
Qed.

Lemma repr_init future c : fresh ∅ future = true → repr (init future c) [].
Proof. intros Hf. split; [constructor | split; [constructor | done]]. Qed.

(** ** The two scans *)

Lemma g_private_get_loop_chain w p l k fuel :
  chain (heap w) p l → (length l < fuel)%nat →
  g_private_get_loop fuel p k w = Some (assoc k l, w).
Proof.
  intros Hc. revert fuel.
  induction Hc as [|a e l Ha He _ IH]; intros [|fuel] Hlen; simpl in *; try lia.
  - done.
  - rewrite decide_False by done. unfold bind, load. rewrite He.
    case_decide; [done | apply IH; lia].
Qed.

Lemma g_private_set_loop_chain w p l k v fuel :
  chain (heap w) p l → (length l < fuel)%nat →
  g_private_set_loop fuel p k v w
  = Some (bool_decide (k ∈ keys_of l), set_heap (overwrite k v l (heap w)) w).
Proof.
  intros Hc. revert fuel.
  induction Hc as [|a e l Ha He _ IH]; intros [|fuel] Hlen; simpl in *; try lia.
  - by rewrite world_eta.
  - rewrite decide_False by done. unfold bind at 1, load. rewrite He.
    destruct (decide (key e = k)) as [Hk|Hk].
    + unfold bind, store_value, ret. rewrite He.
      rewrite bool_decide_eq_true_2; [done | rewrite Hk; apply list_elem_of_here].
    + rewrite IH by lia. do 2 f_equal. apply bool_decide_ext.
      rewrite elem_of_cons. split; [by right | intros [?|?]; [congruence | done]].
Qed.

(** ** What [g_private_get] and [g_private_set] do to a store *)

Lemma scan_fuel_enough w l : repr w l → (length l < S (size (heap w)))%nat.
Proof. intros (Hc & Hnd & _). pose proof (chain_length _ _ _ Hc Hnd). lia. Qed.

Lemma g_private_get_repr w l k :
  repr w l → g_private_get k w = Some (assoc k l, w).
Proof.
  intros Hr. unfold g_private_get, bind, scan_fuel, read_private_list.
  apply g_private_get_loop_chain; [apply Hr | by apply scan_fuel_enough].
Qed.

(** The key is there: its node is overwritten where it is. *)
Lemma g_private_set_present w l k v :
  repr w l → k ∈ keys_of l →
  g_private_set k v w = Some (tt, set_heap (overwrite k v l (heap w)) w)
  ∧ repr (set_heap (overwrite k v l (heap w)) w) (update k v l).
Proof.
  intros Hr Hin. split.
  - unfold g_private_set, bind at 1 2 3, scan_fuel, read_private_list.
    rewrite (g_private_set_loop_chain w _ l); [|apply Hr|by apply scan_fuel_enough].
    by rewrite bool_decide_eq_true_2.
  - destruct Hr as (Hc & Hnd & Hf). split; [|split]; simpl.
    + apply chain_overwrite; [done|]. by eapply chain_NoDup_addr.
    + by rewrite keys_of_update.
    + revert Hf. apply fresh_change. intros x _. by eapply overwrite_lookup_None.
Qed.

(** The world after a call of [g_private_set] for a key that is not there. *)
Definition pushed (k v : Z) (w : world) : world :=
  let a := next_malloc w in
  {| heap := if decide (a ≠ NULL)
             then <[a := mkEntry k v (private_list w)]> (heap w) else heap w;
     private_list := if decide (a ≠ NULL) then a else private_list w;
     brk := tl (brk w);
     mallocs := S (mallocs w);
     cells := cells w |}.

Lemma g_private_set_absent w l k v :
  repr w l → k ∉ keys_of l →
  g_private_set k v w = Some (tt, pushed k v w)
  ∧ repr (pushed k v w)
         (if decide (next_malloc w ≠ NULL)
          then (next_malloc w, mkEntry k v (private_list w)) :: l else l).
Proof.
  intros Hr Hnot. split.
  - unfold g_private_set, bind at 1 2 3, scan_fuel, read_private_list.
    rewrite (g_private_set_loop_chain w _ l); [|apply Hr|by apply scan_fuel_enough].
    rewrite bool_decide_eq_false_2 by done.
    rewrite overwrite_absent, world_eta by done.
    unfold bind, malloc, pushed, next_malloc. simpl.
    case_decide; done.
  - destruct Hr as (Hc & Hnd & Hf). unfold pushed, next_malloc in *.
    case_decide as Ha; (split; [|split]); simpl.
    + destruct (fresh_hd _ _ Hf Ha) as [Hnone Hnin].
      constructor; [done | by rewrite lookup_insert_eq |]. simpl.
      apply chain_insert_other; [done|].
      intros Hin. apply list_elem_of_fmap in Hin as [[a' e'] [Heq Hin]].
      simpl in Heq. subst a'.
      destruct (chain_lookup _ _ _ _ _ Hc Hin) as [He' _]. congruence.
    + apply NoDup_cons. done.
    + destruct (fresh_hd _ _ Hf Ha) as [Hnone Hnin].
      apply fresh_tl in Hf. revert Hf. apply fresh_change.
      intros x Hin Hx. rewrite lookup_insert_ne; [done | congruence].
    + done.
    + done.
    + by apply fresh_tl.
Qed.

(** [g_private_get] writes nothing, whatever the memory looks like. *)
Lemma g_private_get_loop_frame fuel p k w v w' :
  g_private_get_loop fuel p k w = Some (v, w') → w' = w.
Proof.
  revert p. induction fuel as [|fuel IH]; intros p; simpl; [done|].
  case_decide; [by intros [= _ <-]|].
  unfold bind, load. destruct (heap w !! p) as [e|]; [|done].
  case_decide; [by intros [= _ <-] | apply IH].
Qed.

(** ** Programs *)

(** Every call returns, keeps the invariant, leaves the callers' cells
    alone, and changes the entry of no key but the one it sets. *)
Lemma exec_repr c w l :
  repr w l →
  ∃ r w' l', exec c w = Some (r, w') ∧ repr w' l' ∧ cells w' = cells w
    ∧ (∀ k, sets_key c ≠ Some k →
         assoc k l' = assoc k l ∧ (k ∈ keys_of l' ↔ k ∈ keys_of l))
    ∧ (is_trylock c = true → r = RBool TRUE).
Proof.
  intros Hr.
  assert (∀ r, exec c w = Some (r, w) → (is_trylock c = true → r = RBool TRUE) →
    ∃ r w' l', exec c w = Some (r, w') ∧ repr w' l' ∧ cells w' = cells w
      ∧ (∀ k, sets_key c ≠ Some k →
           assoc k l' = assoc k l ∧ (k ∈ keys_of l' ↔ k ∈ keys_of l))
      ∧ (is_trylock c = true → r = RBool TRUE)) as Hstub.
  { intros r He Ht. by exists r, w, l. }
  assert (∀ k v,
    ∃ w' l', g_private_set k v w = Some (tt, w') ∧ repr w' l' ∧ cells w' = cells w
      ∧ (∀ k', Some k ≠ Some k' →
           assoc k' l' = assoc k' l ∧ (k' ∈ keys_of l' ↔ k' ∈ keys_of l))) as Hset.
  { intros k v. destruct (decide (k ∈ keys_of l)) as [Hin|Hnot].
    - destruct (g_private_set_present w l k v Hr Hin) as [He Hr'].
      eexists _, _. split; [exact He|]. split; [exact Hr'|]. split; [done|].
      intros k' Hne. rewrite keys_of_update. split; [|done].
      apply assoc_update_ne. congruence.
    - destruct (g_private_set_absent w l k v Hr Hnot) as [He Hr'].
      eexists _, _. split; [exact He|]. split; [exact Hr'|]. split; [done|].
      intros k' Hne. case_decide; [|done]. simpl.
      rewrite decide_False by congruence. split; [done|].
      rewrite elem_of_cons. split; [intros [?|?]; [congruence | done] | by right]. }
  destruct c;
    try (by eapply Hstub; [reflexivity | simpl; first [done | discriminate]]).
  - exists (RPtr (assoc k l)), w, l. split; [|done].
    unfold exec, pointer, bind. by rewrite (g_private_get_repr w l k Hr).
  - destruct (Hset k v) as (w' & l' & He & Hr' & Hc & Hk).
    exists RVoid, w', l'. split; [|done].
    unfold exec, void, bind. by rewrite He.
  - destruct (Hset k v) as (w' & l' & He & Hr' & Hc & Hk).
    exists RVoid, w', l'. split; [|done].
    unfold exec, void, bind, g_private_replace. by rewrite He.
Qed.

Lemma never_sets_cons k c cs :
  never_sets k (c :: cs) = true ↔ sets_key c ≠ Some k ∧ never_sets k cs = true.
Proof.
  unfold never_sets. simpl. by rewrite andb_true_iff, bool_decide_eq_true.
Qed.

Lemma run_repr cs w l :
  repr w l →
  ∃ rs w' l', run cs w = Some (rs, w') ∧ repr w' l' ∧ cells w' = cells w
    ∧ length rs = length cs
    ∧ (∀ k, never_sets k cs = true →
         assoc k l' = assoc k l ∧ (k ∈ keys_of l' ↔ k ∈ keys_of l))
    ∧ (∀ i c, cs !! i = Some c → is_trylock c = true → rs !! i = Some (RBool TRUE)).
Proof.
  revert w l. induction cs as [|c cs IH]; intros w l Hr.
  - exists [], w, l. split; [done|]. split; [done|]. do 3 (split; [done|]).
    intros i c Hi. by rewrite lookup_nil in Hi.
  - destruct (exec_repr c w l Hr) as (r & w1 & l1 & He & Hr1 & Hc1 & Hk1 & Ht1).
    destruct (IH w1 l1 Hr1) as (rs & w2 & l2 & Hrun & Hr2 & Hc2 & Hlen & Hk2 & Ht2).
    exists (r :: rs), w2, l2. split; [|split; [done|split; [congruence|split; [|split]]]].
    + simpl. unfold bind. rewrite He, Hrun. done.
    + simpl. by rewrite Hlen.
    + intros k Hns. apply never_sets_cons in Hns as [Hc Hns].
      destruct (Hk1 k Hc) as [Ha1 Hi1]. destruct (Hk2 k Hns) as [Ha2 Hi2].
      split; [congruence | by rewrite Hi2].
    + intros [|i] c' Hi Ht; simpl in *.
      * injection Hi as <-. by rewrite Ht1.
      * by eapply Ht2.
Qed.

(** Every program started on the empty store, whatever [malloc] answers,
    runs to its end and leaves a well-formed store. *)
Lemma run_wf future c cs :
  fresh ∅ future = true →
  ∃ rs w l, run cs (init future c) = Some (rs, w) ∧ repr w l ∧ wf w = true.
Proof.
  intros Hfresh.
  destruct (run_repr cs _ _ (repr_init future c Hfresh))
    as (rs & w & l & Hrun & Hr & _).
  exists rs, w, l. split; [done|]. split; [done | by eapply repr_wf].
Qed.

(** ** [g_private_set] on a well-formed store, all cases together *)

Lemma g_private_set_repr w l k v :
  repr w l →
  ∃ w' l',
    g_private_set k v w = Some (tt, w') ∧ repr w' l' ∧ cells w' = cells w
    ∧ (k ∈ keys_of l' ↔ k ∈ keys_of l ∨ next_malloc w ≠ NULL)
    ∧ (k ∈ keys_of l' → assoc k l' = v)
    ∧ (k ∈ keys_of l →
         private_list w' = private_list w ∧ dom (heap w') = dom (heap w)
         ∧ brk w' = brk w ∧ mallocs w' = mallocs w)
    ∧ (k ∉ keys_of l → w' = pushed k v w).
Proof.
  intros Hr. destruct (decide (k ∈ keys_of l)) as [Hin|Hnot].
  - destruct (g_private_set_present w l k v Hr Hin) as [He Hr'].
    eexists _, _. split; [exact He|]. split; [exact Hr'|]. split; [done|].
    rewrite keys_of_update. split; [tauto|]. split; [|split; [|done]].
    + intros _. by apply assoc_update_eq.
    + intros _. simpl. split; [done|]. split; [|done].
      eapply overwrite_dom. apply Hr.
  - destruct (g_private_set_absent w l k v Hr Hnot) as [He Hr'].
    eexists _, _. split; [exact He|]. split; [exact Hr'|]. split; [done|].
    split; [|split; [|done]].
    + case_decide as Ha.
      * simpl. rewrite elem_of_cons. tauto.
      * tauto.
    + case_decide as Ha; [|done]. intros _. simpl. by rewrite decide_True.
Qed.

(** * The specification *)

(** ** The key/value store *)

(** C1, as the code has it. After [g_private_set k v], [g_private_get k]
    returns [v] on every well-formed store where [k] already has an entry
    or the allocation of its entry succeeds. *)
Theorem set_then_get k v w :
  wf w = true →
  present k w = true ∨ next_malloc w ≠ NULL →
  ∃ w', g_private_set k v w = Some (tt, w') ∧ g_private_get k w' = Some (v, w').
Proof.
  intros Hwf Hok. destruct (wf_repr _ Hwf) as [l Hr].
  rewrite (repr_present _ _ k Hr), bool_decide_eq_true in Hok.
  destruct (g_private_set_repr w l k v Hr) as (w' & l' & He & Hr' & _ & Hin & Hv & _).
  exists w'. split; [done|].
  rewrite (g_private_get_repr _ _ k Hr'). f_equal. f_equal. apply Hv, Hin, Hok.
Qed.

Lemma set_then_get_witness :
  ∃ w', g_private_set 7 8 (init [16] ∅) = Some (tt, w')
        ∧ g_private_get 7 w' = Some (8, w').
Proof.
  apply set_then_get; [reflexivity | right; vm_compute; discriminate].
Defined.

(** C1, as the specification words it, fails when the key is new and
    [malloc] answers [NULL]: the call stores nothing and the read that
    follows returns [NULL], not the value. *)
Lemma set_then_get_alloc_failure :
  wf (init [NULL] ∅) = true
  ∧ ¬ ∃ w', g_private_set 7 8 (init [NULL] ∅) = Some (tt, w')
            ∧ g_private_get 7 w' = Some (8, w').
Proof.
  split; [reflexivity|]. intros (w' & Hset & Hget).
  vm_compute in Hset. injection Hset as <-. vm_compute in Hget. discriminate.
Qed.

(** C2, as the code has it. Every store reached from the empty one holds
    each key at most once. On a well-formed store, two calls of
    [g_private_set] for [k] leave at most one entry for [k]; they leave
    exactly one, and [g_private_get k] returns the second value, when [k]
    had an entry or one of the allocations succeeds; and when [k] has an
    entry at the second call, that call writes into the node where it is:
    same head, same nodes, [malloc] not called. *)
Theorem set_twice k v1 v2 w future c cs :
  wf w = true →
  fresh ∅ future = true →
  (∃ w1 w2,
      g_private_set k v1 w = Some (tt, w1)
      ∧ g_private_set k v2 w1 = Some (tt, w2)
      ∧ wf w2 = true
      ∧ (count_key k w2 ≤ 1)%nat
      ∧ (present k w = true ∨ next_malloc w ≠ NULL ∨ next_malloc w1 ≠ NULL →
           count_key k w2 = 1%nat ∧ g_private_get k w2 = Some (v2, w2))
      ∧ (present k w1 = true →
           private_list w2 = private_list w1 ∧ dom (heap w2) = dom (heap w1)
           ∧ brk w2 = brk w1 ∧ mallocs w2 = mallocs w1))
  ∧ (∃ rs w', run cs (init future c) = Some (rs, w')
              ∧ wf w' = true ∧ NoDup (keys w')).
Proof.
  intros Hwf Hfresh. split.
  - destruct (wf_repr _ Hwf) as [l Hr].
    destruct (g_private_set_repr w l k v1 Hr)
      as (w1 & l1 & He1 & Hr1 & _ & Hin1 & _ & _ & _).
    destruct (g_private_set_repr w1 l1 k v2 Hr1)
      as (w2 & l2 & He2 & Hr2 & _ & Hin2 & Hv2 & Hplace & _).
    exists w1, w2. split; [done|]. split; [done|].
    split; [by eapply repr_wf|].
    rewrite (repr_count _ _ k Hr2), (repr_present _ _ k Hr), (repr_present _ _ k Hr1).
    rewrite !bool_decide_eq_true. split; [case_decide; lia|]. split.
    + intros Hok. assert (k ∈ keys_of l2) as Hin by (rewrite Hin2, Hin1; tauto).
      rewrite decide_True by done. split; [done|].
      rewrite (g_private_get_repr _ _ k Hr2). by rewrite Hv2.
    + done.
  - destruct (run_wf future c cs Hfresh) as (rs & w' & l' & Hrun & Hr' & Hwf').
    exists rs, w'. split; [done|]. split; [done|].
    rewrite (repr_keys _ _ Hr'). apply Hr'.
Qed.

Lemma set_twice_witness :
  ∃ w2, (g_private_set 7 8 ;; g_private_set 7 9) (init [16] ∅) = Some (tt, w2)
        ∧ count_key 7 w2 = 1%nat
        ∧ g_private_get 7 w2 = Some (9, w2).
Proof.
  destruct (set_twice 7 8 9 (init [16] ∅) [16; 32] ∅
              [Call_private_set 7 8; Call_private_set 7 9] eq_refl eq_refl)
    as [(w1 & w2 & H1 & H2 & _ & _ & Hone & _) _].
  exists w2. unfold bind. rewrite H1, H2. split; [reflexivity|].
  apply Hone. right. left. vm_compute. discriminate.
Defined.

(** C2, as the specification words it, fails when both calls find no memory:
    no entry for the key exists afterwards and the read returns [NULL]. *)
Lemma set_twice_alloc_failure :
  wf (init [NULL; NULL] ∅) = true
  ∧ ¬ ∃ w1 w2,
        g_private_set 7 8 (init [NULL; NULL] ∅) = Some (tt, w1)
        ∧ g_private_set 7 9 w1 = Some (tt, w2)
        ∧ count_key 7 w2 = 1%nat
        ∧ g_private_get 7 w2 = Some (9, w2).
Proof.
  split; [reflexivity|]. intros (w1 & w2 & H1 & H2 & Hcount & _).
  vm_compute in H1. injection H1 as <-.
  vm_compute in H2. injection H2 as <-.
  vm_compute in Hcount. discriminate.
Qed.

(** C3. A key that no call has set reads as [NULL]: after any program that
    starts from the empty store and never calls [g_private_set] or
    [g_private_replace] with [k], [g_private_get k] returns [NULL]; so it
    does on the empty store itself. *)
Theorem get_never_set k future c cs :
  fresh ∅ future = true →
  never_sets k cs = true →
  g_private_get k (init future c) = Some (NULL, init future c)
  ∧ ∃ rs w, run cs (init future c) = Some (rs, w)
            ∧ g_private_get k w = Some (NULL, w).
Proof.
  intros Hfresh Hnever. split; [reflexivity|].
  destruct (run_repr cs _ _ (repr_init future c Hfresh))
    as (rs & w & l & Hrun & Hr & _ & _ & Hk & _).
  exists rs, w. split; [done|].
  rewrite (g_private_get_repr _ _ k Hr). destruct (Hk k Hnever) as [-> _]. done.
Qed.

Lemma get_never_set_witness :
  g_private_get 5 (init [16; NULL; 32] ∅) = Some (NULL, init [16; NULL; 32] ∅)
  ∧ ∃ rs w,
      run [Call_private_set 7 8; Call_private_get 5; Call_private_replace 9 10;
           Call_private_set 11 12; Call_mutex_lock 5]
          (init [16; NULL; 32] ∅) = Some (rs, w)
      ∧ g_private_get 5 w = Some (NULL, w).
Proof. apply get_never_set; reflexivity. Defined.

(** C4. On a well-formed store, [g_private_set] for a key without an entry,
    when [malloc] answers [NULL], returns normally and leaves the list, its
    head, its nodes and the callers' cells as they were; for a key with an
    entry it does not call [malloc], leaves the set of nodes as it was, and
    the value is stored. *)
Theorem set_alloc_failure k v w :
  wf w = true →
  (present k w = false → next_malloc w = NULL →
     ∃ w', g_private_set k v w = Some (tt, w')
           ∧ heap w' = heap w ∧ private_list w' = private_list w
           ∧ cells w' = cells w ∧ entries w' = entries w ∧ wf w' = true)
  ∧ (present k w = true →
     ∃ w', g_private_set k v w = Some (tt, w')
           ∧ mallocs w' = mallocs w ∧ brk w' = brk w
           ∧ dom (heap w') = dom (heap w)
           ∧ g_private_get k w' = Some (v, w')).
Proof.
  intros Hwf. destruct (wf_repr _ Hwf) as [l Hr].
  rewrite (repr_present _ _ k Hr).
  destruct (g_private_set_repr w l k v Hr)
    as (w' & l' & He & Hr' & Hc & Hin & Hv & Hplace & Hpush).
  split.
  - intros Hnot%bool_decide_eq_false Hnull. exists w'. split; [done|].
    rewrite (Hpush Hnot) in *. unfold pushed in *. rewrite Hnull in *.
    rewrite !decide_False in * by (intros Hne; by apply Hne).
    repeat (split; [done|]). by eapply repr_wf.
  - intros Hpres%bool_decide_eq_true. exists w'. split; [done|].
    destruct (Hplace Hpres) as (_ & Hdom & Hbrk & Hm).
    repeat (split; [done|]).
    rewrite (g_private_get_repr _ _ k Hr'). rewrite Hv; [done|]. apply Hin. by left.
Qed.

Lemma set_alloc_failure_witness :
  (∃ w', g_private_set 7 8 (init [NULL; 16] ∅) = Some (tt, w')
         ∧ heap w' = ∅ ∧ private_list w' = NULL)
  ∧ (∃ w', g_private_set 7 9 (mkWorld {[16 := mkEntry 7 8 NULL]} 16 [] 1 ∅)
           = Some (tt, w')
           ∧ mallocs w' = 1%nat
           ∧ g_private_get 7 w' = Some (9, w')).
Proof.
  split.
  - destruct (set_alloc_failure 7 8 (init [NULL; 16] ∅) eq_refl) as [Hfail _].
    destruct (Hfail eq_refl eq_refl) as (w' & Hset & Hh & Hp & _).
    exists w'. split; [exact Hset | split; [exact Hh | exact Hp]].
  - destruct (set_alloc_failure 7 9 (mkWorld {[16 := mkEntry 7 8 NULL]} 16 [] 1 ∅))
      as [_ Hthere]; [vm_compute; reflexivity|].
    destruct Hthere as (w' & Hset & Hm & _ & _ & Hget); [vm_compute; reflexivity|].
    exists w'. split; [exact Hset | split; [exact Hm | exact Hget]].
Defined.

(** C5. [g_private_replace] is [g_private_set]: same result and same store
    on every key, value and world, and the two functions are equal. *)
Theorem replace_is_set :
  (∀ k v w, g_private_replace k v w = g_private_set k v w)
  ∧ g_private_replace = g_private_set.
Proof. split; reflexivity. Qed.

(** C6. A key bound to [NULL] reads like a key without an entry: on a
    well-formed store, whatever [malloc] answers, after
    [g_private_set k NULL] the call [g_private_get k] returns [NULL], which
    is also what it returns for every key [k'] that has no entry. *)
Theorem null_value_reads_as_absent k k' w :
  wf w = true →
  ∃ w', g_private_set k NULL w = Some (tt, w')
        ∧ g_private_get k w' = Some (NULL, w')
        ∧ (present k' w' = false → g_private_get k' w' = g_private_get k w').
Proof.
  intros Hwf. destruct (wf_repr _ Hwf) as [l Hr].
  destruct (g_private_set_repr w l k NULL Hr)
    as (w' & l' & He & Hr' & _ & _ & Hv & _).
  exists w'. split; [done|].
  assert (assoc k l' = NULL) as Hk.
  { destruct (decide (k ∈ keys_of l')); [by apply Hv | by apply assoc_absent]. }
  rewrite !(g_private_get_repr _ _ _ Hr'), (repr_present _ _ k' Hr'), Hk.
  split; [done|]. intros Hnot%bool_decide_eq_false. by rewrite assoc_absent.
Qed.

Lemma null_value_reads_as_absent_witness :
  ∃ w', g_private_set 7 NULL (init [16] ∅) = Some (tt, w')
        ∧ g_private_get 7 w' = Some (NULL, w')
        ∧ (present 5 w' = false → g_private_get 5 w' = g_private_get 7 w').
Proof. apply null_value_reads_as_absent. reflexivity. Defined.

(** C10. [g_private_get] changes nothing: whenever it returns, the world is
    the one it was called in; and on a well-formed store it returns. *)
Theorem get_no_side_effect k w :
  (∀ v w', g_private_get k w = Some (v, w') → w' = w)
  ∧ (wf w = true → ∃ v, g_private_get k w = Some (v, w)).
Proof.
  split.
  - intros v w'. unfold g_private_get, bind, scan_fuel, read_private_list.
    apply g_private_get_loop_frame.
  - intros Hwf. destruct (wf_repr _ Hwf) as [l Hr].
    exists (assoc k l). by apply g_private_get_repr.
Qed.

Lemma get_no_side_effect_witness :
  ∃ v, g_private_get 7 (mkWorld {[16 := mkEntry 7 8 NULL]} 16 [32] 1 ∅)
       = Some (v, mkWorld {[16 := mkEntry 7 8 NULL]} 16 [32] 1 ∅).
Proof. apply get_no_side_effect. vm_compute. reflexivity. Defined.

(** ** The stubs *)

(** C7. [g_system_thread_new] returns [NULL] whatever it is given and
    leaves the world as it is; the cell [error] points to, with it. *)
Theorem system_thread_new_null proxy stack_size name func data error w :
  ∃ w', g_system_thread_new proxy stack_size name func data error w
        = Some (NULL, w')
        ∧ w' = w
        ∧ cells w' !! error = cells w !! error.
Proof. by exists w. Qed.

(** C8. The four trylock functions and [g_cond_wait_until] return [TRUE]
    in every world, for all arguments, and change nothing; and in a program
    of any calls in any order, started on the empty store, every call
    returns and each of these five returns [TRUE]. *)
Theorem trylock_returns_TRUE cs future c :
  (∀ mutex w, g_mutex_trylock mutex w = Some (TRUE, w))
  ∧ (∀ rw_lock w, g_rw_lock_writer_trylock rw_lock w = Some (TRUE, w))
  ∧ (∀ rw_lock w, g_rw_lock_reader_trylock rw_lock w = Some (TRUE, w))
  ∧ (∀ rec_mutex w, g_rec_mutex_trylock rec_mutex w = Some (TRUE, w))
  ∧ (∀ cond mutex end_time w,
       g_cond_wait_until cond mutex end_time w = Some (TRUE, w))
  ∧ (fresh ∅ future = true →
     ∃ rs w, run cs (init future c) = Some (rs, w)
             ∧ length rs = length cs
             ∧ ∀ i call, cs !! i = Some call → is_trylock call = true →
                         rs !! i = Some (RBool TRUE)).
Proof.
  do 5 (split; [reflexivity|]). intros Hfresh.
  destruct (run_repr cs _ _ (repr_init future c Hfresh))
    as (rs & w & l & Hrun & _ & _ & Hlen & _ & Ht).
  by exists rs, w.
Qed.

Lemma trylock_returns_TRUE_witness :
  ∃ rs w,
    run [Call_mutex_lock 1; Call_mutex_trylock 1; Call_mutex_trylock 1;
         Call_private_set 7 8; Call_rw_lock_reader_trylock 2;
         Call_cond_wait_until 3 1 0; Call_mutex_unlock 1]
        (init [16] ∅) = Some (rs, w)
    ∧ rs !! 2%nat = Some (RBool TRUE)
    ∧ rs !! 5%nat = Some (RBool TRUE).
Proof.
  destruct (trylock_returns_TRUE
              [Call_mutex_lock 1; Call_mutex_trylock 1; Call_mutex_trylock 1;
               Call_private_set 7 8; Call_rw_lock_reader_trylock 2;
               Call_cond_wait_until 3 1 0; Call_mutex_unlock 1] [16] ∅)
    as (_ & _ & _ & _ & _ & Hrun).
  destruct (Hrun eq_refl) as (rs & w & Heq & _ & Ht).
  exists rs, w. split; [exact Heq|].
  split; eapply Ht; reflexivity.
Defined.

(** C9. The two thread pool queries return 0 in every world, and after any
    number of calls of the setter with any arguments. *)
Theorem thread_pool_getters_zero :
  (∀ w, g_thread_pool_get_max_unused_threads w = Some (0, w))
  ∧ (∀ w, g_thread_pool_get_num_unused_threads w = Some (0, w))
  ∧ (∀ ns w,
       (set_max_unused_threads_all ns ;; g_thread_pool_get_max_unused_threads) w
       = Some (0, w))
  ∧ (∀ ns w,
       (set_max_unused_threads_all ns ;; g_thread_pool_get_num_unused_threads) w
       = Some (0, w)).
Proof.
  assert (∀ ns w, set_max_unused_threads_all ns w = Some (tt, w)) as Hset.
  { induction ns as [|n ns IH]; intros w; [done|]. simpl. unfold bind. simpl. apply IH. }
  repeat split; intros ns w; unfold bind; by rewrite Hset.
Qed.

(** ** The scenario of the specification

    [set(keyA, x); set(keyB, y); set(keyA, z)], then [get(keyA) = z],
    [get(keyB) = y] and [get(keyC)] is absent. *)
Example scenario :
  ∃ w, (g_private_set 1 101 ;; g_private_set 2 102 ;; g_private_set 1 103)
         (init [16; 32] ∅) = Some (tt, w)
       ∧ g_private_get 1 w = Some (103, w)
       ∧ g_private_get 2 w = Some (102, w)
       ∧ g_private_get 3 w = Some (NULL, w)
       ∧ keys w = [2; 1].
Proof. eexists. split; [vm_compute; reflexivity|]. by vm_compute. Qed.

(** * Further properties of the code *)

(** ** One call, case by case *)

(** On a well-formed store a call is one of three things: a call that
    writes nothing; a write to a key that has a node, done in the node; a
    write to a key that has none, which asks [malloc] for one. *)
Lemma exec_cases c w l :
  repr w l →
  (written c = None
   ∧ ∃ r, exec c w = Some (r, w)
          ∧ ∀ k, c = Call_private_get k → r = RPtr (assoc k l))
  ∨ (∃ k v, written c = Some (k, v) ∧ k ∈ keys_of l
            ∧ exec c w = Some (RVoid, set_heap (overwrite k v l (heap w)) w)
            ∧ repr (set_heap (overwrite k v l (heap w)) w) (update k v l))
  ∨ (∃ k v, written c = Some (k, v) ∧ (k ∉ keys_of l)
            ∧ exec c w = Some (RVoid, pushed k v w)
            ∧ repr (pushed k v w)
                   (if decide (next_malloc w ≠ NULL)
                    then (next_malloc w, mkEntry k v (private_list w)) :: l
                    else l)).
Proof.
  intros Hr.
  assert (∀ k v,
    (∃ k0 v0, Some (k, v) = Some (k0, v0) ∧ k0 ∈ keys_of l
       ∧ void (g_private_set k v) w
         = Some (RVoid, set_heap (overwrite k0 v0 l (heap w)) w)
       ∧ repr (set_heap (overwrite k0 v0 l (heap w)) w) (update k0 v0 l))
    ∨ (∃ k0 v0, Some (k, v) = Some (k0, v0) ∧ (k0 ∉ keys_of l)
       ∧ void (g_private_set k v) w = Some (RVoid, pushed k0 v0 w)
       ∧ repr (pushed k0 v0 w)
              (if decide (next_malloc w ≠ NULL)
               then (next_malloc w, mkEntry k0 v0 (private_list w)) :: l
               else l))) as Hset.
  { intros k v. destruct (decide (k ∈ keys_of l)) as [Hin|Hnot].
    - destruct (g_private_set_present w l k v Hr Hin) as [He Hr'].
      left. exists k, v. unfold void, bind. by rewrite He.
    - destruct (g_private_set_absent w l k v Hr Hnot) as [He Hr'].
      right. exists k, v. unfold void, bind. by rewrite He. }
  destruct c;
    try (left; split; [reflexivity|]; eexists; split; [reflexivity|];
         intros ? [=]).
  - left. split; [reflexivity|]. exists (RPtr (assoc k l)). split.
    + unfold exec, pointer, bind. by rewrite (g_private_get_repr w l k Hr).
    + by intros ? [= <-].
  - right. apply Hset.
  - right. apply Hset.
Qed.

Lemma assoc_cons_push a k v p l k' :
  assoc k' ((a, mkEntry k v p) :: l) = if decide (k = k') then v else assoc k' l.
Proof. reflexivity. Qed.

Lemma assoc_update k v l k' :
  k ∈ keys_of l →
  assoc k' (update k v l) = if decide (k = k') then v else assoc k' l.
Proof.
  intros Hin. case_decide as Hk.
  - subst k'. by apply assoc_update_eq.
  - apply assoc_update_ne. congruence.
Qed.

(** ** What the calls leave alone *)

(** X1. Only [g_private_set] and [g_private_replace] write: any other
    call, in any memory whatever, either does not return or returns in the
    world it was called in. *)
Theorem only_set_writes c w :
  written c = None →
  exec c w = None ∨ ∃ r, exec c w = Some (r, w).
Proof.
  intros Hw.
  destruct c; try discriminate Hw; try (right; eexists; reflexivity).
  unfold exec, pointer, bind.
  destruct (g_private_get k w) as [[v w1]|] eqn:Hget; [|by left].
  right. exists (RPtr v). unfold ret. do 2 f_equal. revert Hget.
  unfold g_private_get, bind, scan_fuel, read_private_list.
  apply g_private_get_loop_frame.
Qed.

Lemma only_set_writes_witness :
  exec (Call_cond_wait 3 1) (mkWorld {[16 := mkEntry 7 8 NULL]} 16 [32] 1 ∅)
  = None
  ∨ ∃ r, exec (Call_cond_wait 3 1)
              (mkWorld {[16 := mkEntry 7 8 NULL]} 16 [32] 1 ∅)
         = Some (r, mkWorld {[16 := mkEntry 7 8 NULL]} 16 [32] 1 ∅).
Proof. apply only_set_writes. reflexivity. Defined.

(** X2. A write to [k] is not seen through any other key: on a
    well-formed store, whatever [malloc] answers, [g_private_get k'] returns
    after [g_private_set k v] what it returned before, for every [k' ≠ k]. *)
Theorem set_other_key_unchanged k v k' w :
  wf w = true →
  k' ≠ k →
  ∃ w' x, g_private_set k v w = Some (tt, w')
          ∧ g_private_get k' w = Some (x, w)
          ∧ g_private_get k' w' = Some (x, w').
Proof.
  intros Hwf Hne. destruct (wf_repr _ Hwf) as [l Hr].
  destruct (decide (k ∈ keys_of l)) as [Hin|Hnot].
  - destruct (g_private_set_present w l k v Hr Hin) as [He Hr'].
    eexists _, (assoc k' l). split; [exact He|].
    rewrite (g_private_get_repr _ _ k' Hr), (g_private_get_repr _ _ k' Hr').
    by rewrite assoc_update_ne.
  - destruct (g_private_set_absent w l k v Hr Hnot) as [He Hr'].
    eexists _, (assoc k' l). split; [exact He|].
    rewrite (g_private_get_repr _ _ k' Hr), (g_private_get_repr _ _ k' Hr').
    split; [done|]. case_decide; [|done].
    rewrite assoc_cons_push, decide_False by congruence. done.
Qed.

Lemma set_other_key_unchanged_witness :
  ∃ w' x,
    g_private_set 5 6 (mkWorld {[16 := mkEntry 7 8 NULL]} 16 [32] 1 ∅)
    = Some (tt, w')
    ∧ g_private_get 7 (mkWorld {[16 := mkEntry 7 8 NULL]} 16 [32] 1 ∅)
      = Some (x, mkWorld {[16 := mkEntry 7 8 NULL]} 16 [32] 1 ∅)
    ∧ g_private_get 7 w' = Some (x, w').
Proof.
  apply set_other_key_unchanged; [vm_compute; reflexivity | discriminate].
Defined.

(** X3. A value stays until its key is written again: from a well-formed
    store, any program that calls neither [g_private_set] nor
    [g_private_replace] with [k] runs to its end, and [g_private_get k]
    then returns what it returned before the program. *)
Theorem value_persists k cs w :
  wf w = true →
  never_sets k cs = true →
  ∃ rs w' x, run cs w = Some (rs, w')
             ∧ g_private_get k w = Some (x, w)
             ∧ g_private_get k w' = Some (x, w')
             ∧ present k w' = present k w.
Proof.
  intros Hwf Hnever. destruct (wf_repr _ Hwf) as [l Hr].
  destruct (run_repr cs w l Hr) as (rs & w' & l' & Hrun & Hr' & _ & _ & Hk & _).
  destruct (Hk k Hnever) as [Ha Hin].
  exists rs, w', (assoc k l). split; [done|].
  rewrite (g_private_get_repr _ _ k Hr), (g_private_get_repr _ _ k Hr'), Ha.
  split; [done|]. split; [done|].
  rewrite (repr_present _ _ k Hr), (repr_present _ _ k Hr').
  by apply bool_decide_ext.
Qed.

Lemma value_persists_witness :
  ∃ rs w' x,
    run [Call_private_set 5 6; Call_mutex_lock 1; Call_private_replace 9 10;
         Call_private_get 7; Call_private_set 5 11]
        (mkWorld {[16 := mkEntry 7 8 NULL]} 16 [32; NULL] 1 ∅) = Some (rs, w')
    ∧ g_private_get 7 (mkWorld {[16 := mkEntry 7 8 NULL]} 16 [32; NULL] 1 ∅)
      = Some (x, mkWorld {[16 := mkEntry 7 8 NULL]} 16 [32; NULL] 1 ∅)
    ∧ g_private_get 7 w' = Some (x, w')
    ∧ present 7 w' = present 7 (mkWorld {[16 := mkEntry 7 8 NULL]} 16 [32; NULL] 1 ∅).
Proof. apply value_persists; vm_compute; reflexivity. Defined.

(** ** The two paths of [g_private_set], node by node *)

(** The overwrite is one write, to the first node that carries the key. *)
Lemma overwrite_insert h k v l :
  k ∈ keys_of l →
  ∃ a e, (a, e) ∈ l ∧ key e = k ∧ assoc k l = value e
         ∧ overwrite k v l h = <[a := mkEntry k v (next e)]> h.
Proof.
  induction l as [|[a e] l IH]; simpl; intros Hin.
  - by apply elem_of_nil in Hin.
  - destruct (decide (key e = k)) as [Hk|Hk].
    + exists a, e. split; [apply list_elem_of_here|]. by rewrite Hk.
    + apply elem_of_cons in Hin as [Heq|Hin]; [congruence|].
      destruct (IH Hin) as (a' & e' & Hin' & Hk' & Ha' & Ho').
      exists a', e'. split; [by apply list_elem_of_further | done].
Qed.



(** X5. A write to a key that has no entry calls [malloc] once. When the
    answer is not [NULL], the block was unused, it becomes the head of the
    list, it holds the key and the value and points to the former head, and
    the key comes first in the order of the keys; no other node changes. *)
Theorem set_pushes_at_head k v w :
  wf w = true →
  present k w = false →
  ∃ w', g_private_set k v w = Some (tt, w')
        ∧ mallocs w' = S (mallocs w) ∧ brk w' = tl (brk w)
        ∧ (next_malloc w ≠ NULL →
             heap w !! next_malloc w = None
             ∧ private_list w' = next_malloc w
             ∧ heap w' = <[next_malloc w := mkEntry k v (private_list w)]> (heap w)
             ∧ keys w' = k :: keys w).
Proof.
  intros Hwf Hpres. destruct (wf_repr _ Hwf) as [l Hr].
  rewrite (repr_present _ _ k Hr), bool_decide_eq_false in Hpres.
  destruct (g_private_set_absent w l k v Hr Hpres) as [He Hr'].
  exists (pushed k v w). split; [done|]. split; [done|]. split; [done|].
  intros Ha. rewrite (repr_keys _ _ Hr'), (repr_keys _ _ Hr).
  unfold pushed; simpl. rewrite !decide_True by done.
  split; [|done]. destruct Hr as (_ & _ & Hf).
  by destruct (fresh_hd _ _ Hf Ha).
Qed.

Lemma set_pushes_at_head_witness :
  ∃ w', g_private_set 5 6 (mkWorld {[16 := mkEntry 7 8 NULL]} 16 [32] 1 ∅)
        = Some (tt, w')
        ∧ mallocs w' = 2%nat ∧ brk w' = []
        ∧ (32 ≠ NULL →
             ({[16 := mkEntry 7 8 NULL]} : gmap Z PrivateEntry) !! 32 = None
             ∧ private_list w' = 32
             ∧ heap w' = <[32 := mkEntry 5 6 16]> {[16 := mkEntry 7 8 NULL]}
             ∧ keys w' = 5 :: keys (mkWorld {[16 := mkEntry 7 8 NULL]} 16 [32] 1 ∅)).
Proof.
  refine (set_pushes_at_head 5 6
            (mkWorld {[16 := mkEntry 7 8 NULL]} 16 [32] 1 ∅) _ _);
    vm_compute; reflexivity.
Defined.

(** X6. Writing the value a key already has changes nothing at all: on a
    well-formed store where [k] has an entry and [g_private_get k] returns
    [v], [g_private_set k v] returns in the same world. *)
Theorem set_same_value_noop k v w :
  wf w = true →
  present k w = true →
  g_private_get k w = Some (v, w) →
  g_private_set k v w = Some (tt, w).
Proof.
  intros Hwf Hpres Hget. destruct (wf_repr _ Hwf) as [l Hr].
  rewrite (repr_present _ _ k Hr), bool_decide_eq_true in Hpres.
  rewrite (g_private_get_repr _ _ k Hr) in Hget. injection Hget as Hv.
  destruct (g_private_set_present w l k v Hr Hpres) as [He _].
  destruct (overwrite_insert (heap w) k v l Hpres) as (a & e & Hin & Hk & Ha & Ho).
  destruct Hr as (Hc & _ & _).
  destruct (chain_lookup _ _ _ _ _ Hc Hin) as [Hl _].
  rewrite He, Ho. do 2 f_equal.
  rewrite insert_id; [apply world_eta|].
  rewrite Hl. f_equal. destruct e; simpl in *. congruence.
Qed.

Lemma set_same_value_noop_witness :
  g_private_set 7 8 (mkWorld {[16 := mkEntry 7 8 NULL]} 16 [32] 1 ∅)
  = Some (tt, mkWorld {[16 := mkEntry 7 8 NULL]} 16 [32] 1 ∅).
Proof. apply set_same_value_noop; vm_compute; reflexivity. Defined.

(** ** Nothing is ever removed *)

Lemma overwrite_lookup_Some h p l k v x e :
  chain h p l → h !! x = Some e →
  ∃ e', overwrite k v l h !! x = Some e' ∧ key e' = key e ∧ next e' = next e.
Proof.
  induction 1 as [|a e0 l Ha He _ IH]; simpl; intros Hx; [by exists e|].
  destruct (decide (key e0 = k)) as [Hk|Hk]; [|by apply IH].
  destruct (decide (x = a)) as [->|Hne].
  - rewrite lookup_insert_eq. assert (e0 = e) as -> by congruence. by eexists.
  - rewrite lookup_insert_ne by done. by exists e.
Qed.

Lemma keeps_refl w l : keeps [] w l w l.
Proof.
  split; [done|]. split; [done|]. split; [by left|].
  split; [by eauto|]. split; [simpl; lia | done].
Qed.

Lemma keeps_trans ws1 ws2 w l w1 l1 w2 l2 :
  keeps ws1 w l w1 l1 → keeps ws2 w1 l1 w2 l2 → keeps (ws1 ++ ws2) w l w2 l2.
Proof.
  intros (Hc1 & Hk1 & Hb1 & Hn1 & Hm1 & Hd1) (Hc2 & Hk2 & Hb2 & Hn2 & Hm2 & Hd2).
  split; [congruence|]. split; [by auto|]. split; [|split; [|split]].
  - intros k Hin. rewrite elem_of_app.
    destruct (Hb2 k Hin) as [Hin1|?]; [|by auto].
    destruct (Hb1 k Hin1); by auto.
  - intros a e Hl. destruct (Hn1 a e Hl) as (e1 & Hl1 & Hke1 & Hne1).
    destruct (Hn2 a e1 Hl1) as (e2 & Hl2 & Hke2 & Hne2).
    exists e2. split; [done|]. split; congruence.
  - rewrite length_app. lia.
  - by auto.
Qed.

Lemma exec_keeps c w l :
  repr w l →
  ∃ r w' l', exec c w = Some (r, w') ∧ repr w' l'
             ∧ keeps (written_keys [c]) w l w' l'.
Proof.
  intros Hr. unfold written_keys.
  destruct (exec_cases c w l Hr)
    as [(Hw & r & He & _)
       |[(k & v & Hw & Hin & He & Hr')|(k & v & Hw & Hnot & He & Hr')]];
    simpl; rewrite Hw; simpl.
  - exists r, w, l. split; [done|]. split; [done | apply keeps_refl].
  - eexists _, _, _. split; [exact He|]. split; [exact Hr'|].
    destruct Hr as (Hc & Hnd & Hf).
    split; [done|]. rewrite keys_of_update, addresses_update.
    split; [done|]. split; [by left|]. split; [|split].
    + intros a e. simpl. by eapply overwrite_lookup_Some.
    + simpl. lia.
    + simpl. by rewrite (overwrite_dom _ _ _ _ _ Hc).
  - eexists _, _, _. split; [exact He|]. split; [exact Hr'|].
    destruct Hr as (Hc & Hnd & Hf). unfold pushed, next_malloc in *.
    split; [done|]. simpl. case_decide as Ha.
    + destruct (fresh_hd _ _ Hf Ha) as [Hnone _].
      split; [by intros; apply list_elem_of_further|]. split; [|split; [|split]].
      * intros k'. simpl. rewrite elem_of_cons, list_elem_of_singleton. tauto.
      * intros a e Hl. exists e. rewrite lookup_insert_ne; [done | congruence].
      * lia.
      * intros Hdom. by rewrite dom_insert_L, fmap_cons, Hdom.
    + split; [done|]. split; [by left|]. split; [by eauto|]. split; [lia | done].
Qed.

Lemma run_keeps cs w l :
  repr w l →
  ∃ rs w' l', run cs w = Some (rs, w') ∧ repr w' l'
              ∧ keeps (written_keys cs) w l w' l'.
Proof.
  revert w l. induction cs as [|c cs IH]; intros w l Hr.
  - exists [], w, l. split; [done|]. split; [done | apply keeps_refl].
  - destruct (exec_keeps c w l Hr) as (r & w1 & l1 & He & Hr1 & Hk1).
    destruct (IH w1 l1 Hr1) as (rs & w2 & l2 & Hrun & Hr2 & Hk2).
    exists (r :: rs), w2, l2. split; [|split; [done|]].
    + simpl. unfold bind. by rewrite He, Hrun.
    + replace (written_keys (c :: cs))
        with (written_keys [c] ++ written_keys cs).
      * by eapply keeps_trans.
      * unfold written_keys. simpl. by destruct (written c).
Qed.

(** X7. No call removes, moves or relinks anything: from a well-formed
    store any program runs to its end in a well-formed store where the
    callers' cells are as before, every key that had an entry has one,
    every node is at its address with the key and the [next] it had, and
    [malloc] has been called at most once per write. *)
Theorem nothing_is_removed cs w :
  wf w = true →
  ∃ rs w', run cs w = Some (rs, w')
           ∧ wf w' = true
           ∧ cells w' = cells w
           ∧ (∀ k, present k w = true → present k w' = true)
           ∧ (∀ a e, heap w !! a = Some e →
                ∃ e', heap w' !! a = Some e' ∧ key e' = key e ∧ next e' = next e)
           ∧ (mallocs w ≤ mallocs w' ≤ mallocs w + length (written_keys cs))%nat.
Proof.
  intros Hwf. destruct (wf_repr _ Hwf) as [l Hr].
  destruct (run_keeps cs w l Hr)
    as (rs & w' & l' & Hrun & Hr' & Hc & Hk & _ & Hn & Hm & _).
  exists rs, w'. split; [done|]. split; [by eapply repr_wf|]. split; [done|].
  split; [|done]. intros k.
  rewrite (repr_present _ _ k Hr), (repr_present _ _ k Hr'), !bool_decide_eq_true.
  apply Hk.
Qed.

Lemma nothing_is_removed_witness :
  ∃ rs w',
    run [Call_private_set 5 6; Call_private_replace 7 9; Call_cond_signal 3;
         Call_private_set 11 12]
        (mkWorld {[16 := mkEntry 7 8 NULL]} 16 [32; NULL] 1 ∅) = Some (rs, w')
    ∧ present 7 w' = true
    ∧ mallocs w' = 3%nat.
Proof.
  destruct (nothing_is_removed
              [Call_private_set 5 6; Call_private_replace 7 9; Call_cond_signal 3;
               Call_private_set 11 12]
              (mkWorld {[16 := mkEntry 7 8 NULL]} 16 [32; NULL] 1 ∅))
    as (rs & w' & Hrun & _ & _ & Hk & _); [vm_compute; reflexivity|].
  exists rs, w'. split; [exact Hrun|]. split.
  - apply Hk. vm_compute. reflexivity.
  - vm_compute in Hrun. injection Hrun as _ <-. reflexivity.
Defined.

(** X8. One node per key. In a program started on the empty store every
    block obtained from [malloc] is a node of the list, so the heap holds
    as many nodes as the store has keys; the keys are distinct and each was
    written by the program; and [malloc] was called at most once per
    write. *)
Theorem one_node_per_key future c cs :
  fresh ∅ future = true →
  ∃ rs w, run cs (init future c) = Some (rs, w)
          ∧ size (heap w) = length (keys w)
          ∧ NoDup (keys w)
          ∧ (∀ k, k ∈ keys w → k ∈ written_keys cs)
          ∧ (mallocs w ≤ length (written_keys cs))%nat.
Proof.
  intros Hfresh.
  destruct (run_keeps cs _ _ (repr_init future c Hfresh))
    as (rs & w & l & Hrun & Hr & _ & _ & Hb & _ & Hm & Hd).
  exists rs, w. split; [done|]. rewrite (repr_keys _ _ Hr).
  destruct (Hr) as (Hc & Hnd & _). split; [|split; [done|split]].
  - rewrite <- size_dom, Hd by (simpl; by rewrite dom_empty_L).
    rewrite size_list_to_set by (by eapply chain_NoDup_addr).
    unfold keys_of. by rewrite !length_fmap.
  - intros k Hin. destruct (Hb k Hin) as [Hin0|?]; [|done].
    by apply elem_of_nil in Hin0.
  - simpl in Hm. lia.
Qed.

Lemma one_node_per_key_witness :
  ∃ rs w,
    run [Call_private_set 5 6; Call_private_set 5 7; Call_private_replace 9 10;
         Call_private_set 5 8]
        (init [16; 32; 48] ∅) = Some (rs, w)
    ∧ size (heap w) = length (keys w)
    ∧ NoDup (keys w)
    ∧ (∀ k, k ∈ keys w →
         k ∈ written_keys [Call_private_set 5 6; Call_private_set 5 7;
                           Call_private_replace 9 10; Call_private_set 5 8])
    ∧ (mallocs w ≤ 4)%nat.
Proof. apply (one_node_per_key [16; 32; 48] ∅). reflexivity. Defined.

(** ** The store as a finite map *)

Lemma enough_memory_S n future :
  enough_memory (S n) future = true →
  hd NULL future ≠ NULL ∧ enough_memory n (tl future) = true.
Proof.
  destruct future as [|a r]; simpl; [done|].
  rewrite andb_true_iff, negb_true_iff, bool_decide_eq_false. done.
Qed.

Lemma enough_memory_weaken n future :
  enough_memory (S n) future = true → enough_memory n future = true.
Proof.
  revert future. induction n as [|n IH]; intros future; [done|].
  destruct future as [|a r]; [done|].
  intros [Ha Hr]%enough_memory_S. simpl in *.
  rewrite andb_true_iff, negb_true_iff, bool_decide_eq_false.
  split; [done | by apply IH].
Qed.

(** With memory for every write, a program sees the store as a map: each
    key reads as its last write. *)
Lemma run_last_write cs w l :
  repr w l →
  enough_memory (length (omap written cs)) (brk w) = true →
  ∃ rs w' l',
    run cs w = Some (rs, w') ∧ repr w' l'
    ∧ (∀ k, assoc k l' = last_write k cs (assoc k l))
    ∧ (∀ i k, cs !! i = Some (Call_private_get k) →
         rs !! i = Some (RPtr (last_write k (take i cs) (assoc k l)))).
Proof.
  revert w l. induction cs as [|c cs IH]; intros w l Hr Hmem.
  - exists [], w, l. split; [done|]. split; [done|]. split; [done|].
    intros i k Hi. by rewrite lookup_nil in Hi.
  - simpl in Hmem.
    destruct (exec_cases c w l Hr)
      as [(Hw & r & He & Hget)
         |[(k0 & v0 & Hw & Hin & He & Hr1)|(k0 & v0 & Hw & Hnot & He & Hr1)]];
      rewrite Hw in Hmem; simpl in Hmem.
    + destruct (IH w l Hr Hmem) as (rs & w' & l' & Hrun & Hr' & Ha & Hres).
      exists (r :: rs), w', l'. split; [|split; [done|split]].
      * simpl. unfold bind. by rewrite He, Hrun.
      * intros k. simpl. rewrite Hw. apply Ha.
      * intros [|i] k Hi; simpl in *.
        -- injection Hi as ->. by rewrite (Hget k eq_refl).
        -- rewrite Hw. by apply Hres.
    + apply enough_memory_weaken in Hmem.
      destruct (IH _ _ Hr1 Hmem) as (rs & w' & l' & Hrun & Hr' & Ha & Hres).
      exists (RVoid :: rs), w', l'. split; [|split; [done|split]].
      * simpl. unfold bind. by rewrite He, Hrun.
      * intros k. simpl. rewrite Hw, Ha. by rewrite assoc_update.
      * intros [|i] k Hi; simpl in *.
        -- injection Hi as ->. discriminate Hw.
        -- rewrite Hw, (Hres i k Hi). by rewrite assoc_update.
    + apply enough_memory_S in Hmem as [Hhd Hmem].
      rewrite decide_True in Hr1 by done.
      destruct (IH _ _ Hr1 Hmem) as (rs & w' & l' & Hrun & Hr' & Ha & Hres).
      exists (RVoid :: rs), w', l'. split; [|split; [done|split]].
      * simpl. unfold bind. by rewrite He, Hrun.
      * intros k. simpl. rewrite Hw, Ha. by rewrite assoc_cons_push.
      * intros [|i] k Hi; simpl in *.
        -- injection Hi as ->. discriminate Hw.
        -- by rewrite Hw, (Hres i k Hi).
Qed.

(** X9. With memory for every write, the list behaves as a finite map from
    keys to values with default [NULL]. In a program started on the empty
    store where [malloc] succeeds as many times as there are writes, every
    call of [g_private_get] returns the value of the last write to its key
    before it, [NULL] when there is none; and so does a call after the
    program, for every key. *)
Theorem store_is_a_map future c cs :
  fresh ∅ future = true →
  enough_memory (length (written_keys cs)) future = true →
  ∃ rs w,
    run cs (init future c) = Some (rs, w)
    ∧ (∀ k, g_private_get k w = Some (last_write k cs NULL, w))
    ∧ (∀ i k, cs !! i = Some (Call_private_get k) →
         rs !! i = Some (RPtr (last_write k (take i cs) NULL))).
Proof.
  intros Hfresh Hmem. unfold written_keys in Hmem. rewrite length_fmap in Hmem.
  destruct (run_last_write cs _ _ (repr_init future c Hfresh) Hmem)
    as (rs & w & l & Hrun & Hr & Ha & Hres).
  exists rs, w. split; [done|]. split; [|done].
  intros k. rewrite (g_private_get_repr _ _ k Hr). by rewrite Ha.
Qed.

Lemma store_is_a_map_witness :
  ∃ rs w,
    run [Call_private_get 5; Call_private_set 5 6; Call_private_set 7 8;
         Call_private_get 5; Call_private_replace 5 9; Call_private_get 5]
        (init [16; 32; 48] ∅) = Some (rs, w)
    ∧ g_private_get 5 w = Some (9, w)
    ∧ g_private_get 7 w = Some (8, w)
    ∧ rs !! 0%nat = Some (RPtr NULL)
    ∧ rs !! 3%nat = Some (RPtr 6)
    ∧ rs !! 5%nat = Some (RPtr 9).
Proof.
  destruct (store_is_a_map [16; 32; 48] ∅
              [Call_private_get 5; Call_private_set 5 6; Call_private_set 7 8;
               Call_private_get 5; Call_private_replace 5 9; Call_private_get 5]
              eq_refl eq_refl) as (rs & w & Hrun & Hget & Hres).
  exists rs, w. split; [exact Hrun|].
  split; [exact (Hget 5)|]. split; [exact (Hget 7)|].
  split; [exact (Hres 0%nat 5 eq_refl)|].
  split; [exact (Hres 3%nat 5 eq_refl) | exact (Hres 5%nat 5 eq_refl)].
Defined.

(** X10. Writes to two different keys commute for every reader, when
    [malloc] can serve both: on a well-formed store where the next two
    calls of [malloc] succeed, [g_private_set k1 v1; g_private_set k2 v2]
    and the same calls in the other order both return, and
    [g_private_get] then returns the same value for every key. *)
Theorem sets_commute k1 v1 k2 v2 w :
  wf w = true →
  k1 ≠ k2 →
  enough_memory 2 (brk w) = true →
  ∃ wa wb,
    (g_private_set k1 v1 ;; g_private_set k2 v2) w = Some (tt, wa)
    ∧ (g_private_set k2 v2 ;; g_private_set k1 v1) w = Some (tt, wb)
    ∧ ∀ k, ∃ x, g_private_get k wa = Some (x, wa)
                ∧ g_private_get k wb = Some (x, wb).
Proof.
  intros Hwf Hne Hmem. destruct (wf_repr _ Hwf) as [l Hr].
  destruct (run_last_write [Call_private_set k1 v1; Call_private_set k2 v2]
              w l Hr Hmem) as (rsa & wa & la & Hruna & Hra & Haa & _).
  destruct (run_last_write [Call_private_set k2 v2; Call_private_set k1 v1]
              w l Hr Hmem) as (rsb & wb & lb & Hrunb & Hrb & Hab & _).
  assert (∀ ka va kb vb rs w',
    run [Call_private_set ka va; Call_private_set kb vb] w = Some (rs, w') →
    (g_private_set ka va ;; g_private_set kb vb) w = Some (tt, w')) as Hseq.
  { intros ka va kb vb rs w'. simpl. unfold void, bind, ret.
    destruct (g_private_set ka va w) as [[[] w1]|]; [|done].
    destruct (g_private_set kb vb w1) as [[[] w2]|]; [|done].
    by intros [= _ <-]. }
  exists wa, wb. split; [by eapply Hseq|]. split; [by eapply Hseq|].
  intros k. exists (assoc k la).
  rewrite (g_private_get_repr _ _ k Hra), (g_private_get_repr _ _ k Hrb).
  split; [done|]. do 2 f_equal. rewrite Haa, Hab. simpl.
  repeat case_decide; congruence.
Qed.

Lemma sets_commute_witness :
  ∃ wa wb,
    (g_private_set 5 6 ;; g_private_set 7 9)
      (mkWorld {[16 := mkEntry 7 8 NULL]} 16 [32; 48] 1 ∅) = Some (tt, wa)
    ∧ (g_private_set 7 9 ;; g_private_set 5 6)
        (mkWorld {[16 := mkEntry 7 8 NULL]} 16 [32; 48] 1 ∅) = Some (tt, wb)
    ∧ ∀ k, ∃ x, g_private_get k wa = Some (x, wa)
                ∧ g_private_get k wb = Some (x, wb).
Proof.
  apply sets_commute; [vm_compute; reflexivity | discriminate | reflexivity].
Defined.

(** ** Reading *)

Lemma assoc_elem_of l a e :
  NoDup (keys_of l) → (a, e) ∈ l → assoc (key e) l = value e.
Proof.
  induction l as [|[a' e'] l IH]; simpl; intros Hnd Hin.
  - by apply elem_of_nil in Hin.
  - apply NoDup_cons in Hnd as [Hnot Hnd].
    apply elem_of_cons in Hin as [[= <- <-]|Hin]; [by rewrite decide_True|].
    rewrite decide_False; [by apply IH|].
    intros Hk. apply Hnot. rewrite Hk.
    unfold keys_of. apply list_elem_of_fmap. by exists (a, e).
Qed.

(** X11. A key without an entry reads as [NULL]: on every well-formed
    store, [g_private_get k] returns [NULL] when no node of the list
    carries [k]; so a result other than [NULL] tells that the key has an
    entry. *)
Theorem get_absent_key k w :
  wf w = true →
  present k w = false →
  g_private_get k w = Some (NULL, w).
Proof.
  intros Hwf Hpres. destruct (wf_repr _ Hwf) as [l Hr].
  rewrite (repr_present _ _ k Hr), bool_decide_eq_false in Hpres.
  rewrite (g_private_get_repr _ _ k Hr). by rewrite assoc_absent.
Qed.

Lemma get_absent_key_witness :
  g_private_get 5 (mkWorld {[16 := mkEntry 7 8 NULL]} 16 [32] 1 ∅)
  = Some (NULL, mkWorld {[16 := mkEntry 7 8 NULL]} 16 [32] 1 ∅).
Proof. apply get_absent_key; vm_compute; reflexivity. Defined.

(** X12. [g_private_get] reads the node that carries the key: on a
    well-formed store, for every node of the list, at whatever depth,
    [g_private_get] of the node's key returns the node's value. *)
Theorem get_reads_node a e l w :
  wf w = true →
  entries w = Some l →
  (a, e) ∈ l →
  heap w !! a = Some e ∧ g_private_get (key e) w = Some (value e, w).
Proof.
  intros Hwf Hent Hin. destruct (wf_repr _ Hwf) as [l' Hr].
  rewrite (repr_entries _ _ Hr) in Hent. injection Hent as ->.
  destruct Hr as (Hc & Hnd & Hf). split.
  - by destruct (chain_lookup _ _ _ _ _ Hc Hin).
  - rewrite (g_private_get_repr w l (key e)) by done.
    by rewrite (assoc_elem_of l a e).
Qed.

Lemma get_reads_node_witness :
  ({[16 := mkEntry 7 8 NULL; 32 := mkEntry 5 6 16]} : gmap Z PrivateEntry) !! 16
  = Some (mkEntry 7 8 NULL)
  ∧ g_private_get 7
      (mkWorld {[16 := mkEntry 7 8 NULL; 32 := mkEntry 5 6 16]} 32 [] 2 ∅)
    = Some (8, mkWorld {[16 := mkEntry 7 8 NULL; 32 := mkEntry 5 6 16]} 32 [] 2 ∅).
Proof.
  refine (get_reads_node 16 (mkEntry 7 8 NULL)
            [(32, mkEntry 5 6 16); (16, mkEntry 7 8 NULL)]
            (mkWorld {[16 := mkEntry 7 8 NULL; 32 := mkEntry 5 6 16]} 32 [] 2 ∅)
            _ _ _).
  - vm_compute. reflexivity.
  - vm_compute. reflexivity.
  - apply list_elem_of_further, list_elem_of_here.
Defined.
